(** * SleekXMPP roster manager (sleekxmpp/roster/multi.py)

    A shallow embedding of class [Roster]: the dictionary [_rosters] from
    bare JIDs to roster nodes, the node objects it creates, and the methods
    [__init__], [__getitem__], [keys], [__iter__], [add], [set_backend] and
    [reset].

    Roster nodes are Python objects with identity.  They live in a store
    ([nodes]) and the dictionary holds references into it, so that "the same
    node", "a different node object" and "called exactly once on each node"
    are statements about references, not about equal values. *)

From Stdlib Require Import Ascii String.
From stdpp Require Import base option list gmap strings.

Open Scope string_scope.
Open Scope list_scope.

(** ** Values handed to the roster *)

(** [str.split('/', 1)[0]]: the part of a string before its first slash. *)
Fixpoint before_slash (s : string) : string :=
  match s with
  | EmptyString => EmptyString
  | String c s' =>
      if Ascii.eqb c "/"%char then EmptyString else String c (before_slash s')
  end.

(** Modelled from the spec: class [JID] is imported from sleekxmpp.xmlstream,
    which is not among the sources.  A network identity has a full form
    (identity + resource) and a bare form (identity only); the roster reads
    only the attribute [bare] of a JID object. *)
Record JID := mkJID { full : string }.

Definition bare (j : JID) : string := before_slash (full j).

(** What callers pass as [key] / [node]: a JID object or a plain string
    (any value for which [isinstance(key, JID)] is false is used as it is). *)
Inductive pyval :=
  | Jid (j : JID)
  | Str (s : string).

(** Modelled from the spec: the datastore interface object is an external
    collaborator; the roster only calls [entries(None, {})] on it.  The
    record holds an object identity and the sequence that call returns. *)
Record datastore := mkDatastore {
  db_id : nat;
  entries : list pyval
}.

(** The main SleekXMPP instance, an opaque reference. *)
Definition xmpp_ref := nat.

(** ** Roster nodes *)

(** Everything the roster does to a node after constructing it. *)
Inductive node_call :=
  | SetAutoAuthorize (b : bool)       (* node.auto_authorize = b *)
  | SetAutoSubscribe (b : bool)       (* node.auto_subscribe = b *)
  | SetBackend (db : option datastore) (* node.set_backend(db) *)
  | Reset.                            (* node.reset() *)

(** Modelled from the spec: class [RosterNode] is imported from
    sleekxmpp.roster, which is not among the sources.  A node is recorded as
    the arguments of [RosterNode(xmpp, jid, db)] and the calls and attribute
    writes the roster performed on it since, oldest first. *)
Record RosterNode := mkNode {
  node_xmpp : xmpp_ref;
  node_jid : string;
  node_db : option datastore;
  node_calls : list node_call
}.

Definition RosterNode_new (x : xmpp_ref) (jid : string)
    (db : option datastore) : RosterNode :=
  mkNode x jid db [].

Definition record_call (c : node_call) (n : RosterNode) : RosterNode :=
  mkNode (node_xmpp n) (node_jid n) (node_db n) (node_calls n ++ [c]).

(** The value of [node.auto_authorize] as far as the roster decides it:
    the last value written, [None] while the roster never wrote it (the
    node then has whatever its own constructor chose). *)
Definition written_authorize (n : RosterNode) : option bool :=
  last (omap (λ c, match c with SetAutoAuthorize b => Some b | _ => None end)
             (node_calls n)).

Definition written_subscribe (n : RosterNode) : option bool :=
  last (omap (λ c, match c with SetAutoSubscribe b => Some b | _ => None end)
             (node_calls n)).

(** How often [node.reset()] ran on a node. *)
Definition is_reset (c : node_call) : bool :=
  match c with Reset => true | _ => false end.

Definition reset_count (n : RosterNode) : nat :=
  length (filter (λ c, is_reset c = true) (node_calls n)).

(** ** The roster object *)

(** A reference to a node object: its index in the store. *)
Abbreviation ref := nat.

Record Roster := mkRoster {
  xmpp : xmpp_ref;
  db : option datastore;
  auto_authorize : bool;
  auto_subscribe : bool;
  _rosters : gmap string ref;
  nodes : list RosterNode      (* the node objects created so far *)
}.

Definition with_db (d : option datastore) (self : Roster) : Roster :=
  mkRoster (xmpp self) d (auto_authorize self) (auto_subscribe self)
           (_rosters self) (nodes self).

Definition with_auto_authorize (b : bool) (self : Roster) : Roster :=
  mkRoster (xmpp self) (db self) b (auto_subscribe self)
           (_rosters self) (nodes self).

Definition with_auto_subscribe (b : bool) (self : Roster) : Roster :=
  mkRoster (xmpp self) (db self) (auto_authorize self) b
           (_rosters self) (nodes self).

Definition with_rosters (m : gmap string ref) (self : Roster) : Roster :=
  mkRoster (xmpp self) (db self) (auto_authorize self) (auto_subscribe self)
           m (nodes self).

Definition with_nodes (h : list RosterNode) (self : Roster) : Roster :=
  mkRoster (xmpp self) (db self) (auto_authorize self) (auto_subscribe self)
           (_rosters self) h.

(** ** Exceptions and the method monad *)

Inductive exn :=
  | AttributeError (obj attr : string)
  | KeyError (k : string)
  | OtherError (cls : string).   (* any other exception, by its class *)

Inductive result (A : Type) :=
  | Ok (a : A)
  | Raise (e : exn).
Arguments Ok {A} a.
Arguments Raise {A} e.

(** A method: runs on the roster, returns or raises, and leaves the roster
    as it was mutated up to that point. *)
Definition M (A : Type) : Type := Roster → result A * Roster.

Definition ret {A} (a : A) : M A := λ self, (Ok a, self).

Definition raise {A} (e : exn) : M A := λ self, (Raise e, self).

Definition bind {A B} (m : M A) (k : A → M B) : M B :=
  λ self,
    match m self with
    | (Ok a, self') => k a self'
    | (Raise e, self') => (Raise e, self')
    end.

Definition get : M Roster := λ self, (Ok self, self).

Definition modify (f : Roster → Roster) : M unit := λ self, (Ok tt, f self).

#[global] Instance M_ret : MRet M := @ret.
#[global] Instance M_bind : MBind M := λ A B k m, bind m k.

(** [for x in xs: body(x)] *)
Fixpoint for_each {A} (xs : list A) (body : A → M unit) : M unit :=
  match xs with
  | [] => ret tt
  | x :: xs' => body x;; for_each xs' body
  end.

(** [self._rosters[key]] as an expression: [KeyError] when absent. *)
Definition rosters_getitem (key : string) : M ref :=
  self ← get;
  match _rosters self !! key with
  | Some r => ret r
  | None => raise (KeyError key)
  end.

(** [RosterNode(xmpp, jid, db)]: a new object in the store. *)
Definition alloc_node (n : RosterNode) : M ref :=
  self ← get;
  modify (with_nodes (nodes self ++ [n]));;
  ret (length (nodes self)).

(** An attribute write or method call on the node object behind [r]. *)
Definition call_node (r : ref) (c : node_call) : M unit :=
  modify (λ self, with_nodes (alter (record_call c) r (nodes self)) self).

(** ** The methods of [Roster] *)

(** [if isinstance(key, JID): key = key.bare] *)
Definition normalize (key : pyval) : string :=
  match key with
  | Jid j => bare j
  | Str s => s
  end.

Definition add (node : pyval) : M unit :=
  let node := normalize node in
  self ← get;
  if decide (node ∈ dom (_rosters self)) then ret tt
  else
    r ← alloc_node (RosterNode_new (xmpp self) node (db self));
    modify (λ self, with_rosters (<[node := r]> (_rosters self)) self).

Definition getitem (key : pyval) : M ref :=
  let key := normalize key in
  self ← get;
  (if decide (key ∈ dom (_rosters self)) then ret tt
   else
     add (Str key);;
     r ← rosters_getitem key;
     self ← get;
     call_node r (SetAutoAuthorize (auto_authorize self));;
     r ← rosters_getitem key;
     self ← get;
     call_node r (SetAutoSubscribe (auto_subscribe self)));;
  rosters_getitem key.

(** [self._rosters.keys()] *)
Definition keys (self : Roster) : gset string := dom (_rosters self).

(** [self._rosters.__iter__()]: the keys, each once.  The order of a Python
    dictionary is not part of what the roster promises; the order used here
    is that of the finite map. *)
Definition iter (self : Roster) : list string := (map_to_list (_rosters self)).*1.

(** [db.entries(None, {})]; on [None] the attribute lookup fails. *)
Definition db_entries (d : option datastore) : M (list pyval) :=
  match d with
  | Some d => ret (entries d)
  | None => raise (AttributeError "NoneType" "entries")
  end.

Definition set_backend (d : option datastore) : M unit :=
  modify (with_db d);;
  self ← get;
  es ← db_entries (db self);
  for_each es add;;
  self ← get;
  for_each (iter self)
    (λ node, r ← rosters_getitem node; call_node r (SetBackend d)).

Definition reset : M unit :=
  self ← get;
  for_each (iter self)
    (λ node, r ← getitem (Str node); call_node r Reset).

(** [Roster(xmpp, db)]: the attribute assignments, then the seeding loop
    under [if self.db:] ([None] is false, a datastore object is true). *)
Definition init (x : xmpp_ref) (d : option datastore) : result unit * Roster :=
  (match d with
   | Some _ =>
       self ← get;
       es ← db_entries (db self);
       for_each es add
   | None => ret tt
   end) (mkRoster x d true true ∅ []).

(** Assignments to the public attributes [auto_authorize] and
    [auto_subscribe] of the roster are [with_auto_authorize] and
    [with_auto_subscribe] above. *)

(** ** Vocabulary of the properties *)

(** The bare form of an identity value as the specification has it: a JID
    object and a string in full form both stand for the part before the
    resource.  [normalize] is what the code computes; the two differ on
    plain strings that carry a resource. *)
Definition bare_form (v : pyval) : string :=
  match v with
  | Jid j => bare j
  | Str s => before_slash s
  end.

(** The node object a key is mapped to. *)
Definition node_of (self : Roster) (k : string) : option RosterNode :=
  _rosters self !! k ≫= λ r, nodes self !! r.

(** One call recorded on the node behind [r]. *)
Definition touch (c : node_call) (r : ref) (self : Roster) : Roster :=
  with_nodes (alter (record_call c) r (nodes self)) self.

(** The roster after [add(node)]. *)
Definition added (self : Roster) (node : pyval) : Roster := (add node self).2.

(** The dictionary and the store agree: every key refers to a node object
    in the store that was constructed for that key, and every node object
    in the store is the one its own JID is mapped to. *)
Record consistent (self : Roster) : Prop := mkConsistent {
  key_has_node : ∀ k r, _rosters self !! k = Some r →
                 ∃ n, nodes self !! r = Some n ∧ node_jid n = k;
  node_has_key : ∀ r n, nodes self !! r = Some n →
                 _rosters self !! node_jid n = Some r
}.

(** The node created by a lookup of an absent key: constructed by [add]
    with the roster's [xmpp] and [db], then given the two defaults. *)
Definition created_node (self : Roster) (k : string) : RosterNode :=
  mkNode (xmpp self) k (db self)
    [SetAutoAuthorize (auto_authorize self);
     SetAutoSubscribe (auto_subscribe self)].

(** The roster just before the second loop of [set_backend(d)]. *)
Definition seeded (d : datastore) (self : Roster) : Roster :=
  foldl added (with_db (Some d) self) (entries d).

(** [self'] holds every node object of [self], under the same keys; a
    node object keeps the arguments it was constructed with and only gains
    recorded calls. *)
Definition same_object (n n' : RosterNode) : Prop :=
  node_xmpp n' = node_xmpp n ∧ node_jid n' = node_jid n ∧
  node_db n' = node_db n ∧ node_calls n `prefix_of` node_calls n'.

Definition extends (self self' : Roster) : Prop :=
  _rosters self ⊆ _rosters self' ∧
  ∀ r n, nodes self !! r = Some n →
         ∃ n', nodes self' !! r = Some n' ∧ same_object n n'.

(** The calls recorded on the object behind [r]; none while no such object
    exists. *)
Definition calls_on (self : Roster) (r : ref) : list node_call :=
  from_option node_calls [] (nodes self !! r).

(** No two node objects for the same JID. *)
Definition one_node_per_jid (self : Roster) : Prop :=
  ∀ r1 r2 n1 n2,
    nodes self !! r1 = Some n1 → nodes self !! r2 = Some n2 →
    node_jid n1 = node_jid n2 → r1 = r2.

(** One use of the roster by its owner: a method call (whether it returns
    or raises) or an assignment to one of the two default flags. *)
Inductive step : Roster → Roster → Prop :=
  | step_add node self res self' :
      add node self = (res, self') → step self self'
  | step_getitem key self res self' :
      getitem key self = (res, self') → step self self'
  | step_set_backend d self res self' :
      set_backend d self = (res, self') → step self self'
  | step_reset self res self' :
      reset self = (res, self') → step self self'
  | step_auto_authorize b self :
      step self (with_auto_authorize b self)
  | step_auto_subscribe b self :
      step self (with_auto_subscribe b self).

(** The rosters a program can hold: constructed, then used. *)
Inductive reachable : Roster → Prop :=
  | reachable_init x d res self :
      init x d = (res, self) → reachable self
  | reachable_step self self' :
      reachable self → step self self' → reachable self'.

(** Any sequence of uses. *)
Definition steps : Roster → Roster → Prop := rtc step.

(** The datastore a node is bound to: the argument of the last
    [set_backend] call on it, and while there was none the datastore it
    was constructed with. *)
Definition current_db (n : RosterNode) : option datastore :=
  from_option id (node_db n)
    (last (omap (λ c, match c with SetBackend d => Some d | _ => None end)
                (node_calls n))).

(** Every node object is bound to the datastore the roster holds. *)
Definition in_sync (self : Roster) : Prop :=
  Forall (λ n, current_db n = db self) (nodes self).

(** Every node object was constructed with the roster's [xmpp]. *)
Definition owned (self : Roster) : Prop :=
  Forall (λ n, node_xmpp n = xmpp self) (nodes self).

(** The attributes of the roster that are set at construction or by its
    owner: the connection and the two default flags. *)
Definition same_settings (self self' : Roster) : Prop :=
  xmpp self' = xmpp self ∧
  auto_authorize self' = auto_authorize self ∧
  auto_subscribe self' = auto_subscribe self.

(** ** Datastores that are false or whose enumeration raises *)

(** The record [datastore] describes a datastore object by the sequence
    its enumeration returns.  The code asks two more things of the object:
    its truth value, under [if self.db:] in the constructor, and the call
    [entries(None, {})] itself, which may raise instead of returning;
    nothing in the roster catches that exception. *)
Record behaviour := mkBehaviour {
  is_true : bool;                  (* bool(db) *)
  enumeration_raises : option exn  (* what [entries] raises, if it does *)
}.


(** [db.entries(None, {})] on a datastore object that behaves as [b]. *)
Definition db_entries_of (b : behaviour) (d : option datastore)
    : M (list pyval) :=
  match d with
  | Some d =>
      match enumeration_raises b with
      | Some e => raise e
      | None => ret (entries d)
      end
  | None => raise (AttributeError "NoneType" "entries")
  end.

(** [set_backend(d)] when the object [d] behaves as [b]. *)
Definition set_backend_of (b : behaviour) (d : option datastore) : M unit :=
  modify (with_db d);;
  self ← get;
  es ← db_entries_of b (db self);
  for_each es add;;
  self ← get;
  for_each (iter self)
    (λ node, r ← rosters_getitem node; call_node r (SetBackend d)).


(** ** Sample values *)

Definition full_jid : JID := mkJID "user@example.com/resource".

Definition blank : Roster := (init 0 None).2.

Definition store1 : datastore := mkDatastore 1 [Str "a@x"; Str "b@x"].

Definition store2 : datastore :=
  mkDatastore 2 [Str "a@x"; Jid (mkJID "c@x/home")].

Definition seeded1 : Roster := (init 0 (Some store1)).2.

Definition after_reset1 : Roster := (reset seeded1).2.

Definition two_forms : Roster :=
  (getitem (Str "user@example.com")
     (getitem (Str "user@example.com/resource") blank).2).2.

(** * Properties *)

(** ** [keys] *)

Lemma elem_of_keys self k : k ∈ keys self ↔ is_Some (_rosters self !! k).
Proof. apply elem_of_dom. Qed.

Lemma not_elem_of_keys self k : k ∉ keys self ↔ _rosters self !! k = None.
Proof. apply not_elem_of_dom. Qed.

(** ** [add] *)

Lemma add_present node self :
  normalize node ∈ keys self → add node self = (Ok tt, self).
Proof.
  intros Hin. unfold add, keys in *. cbn.
  unfold mbind, M_bind, bind, get. by rewrite decide_True.
Qed.

Lemma add_absent node self :
  normalize node ∉ keys self →
  add node self =
    (Ok tt,
     mkRoster (xmpp self) (db self) (auto_authorize self) (auto_subscribe self)
       (<[normalize node := length (nodes self)]> (_rosters self))
       (nodes self ++ [RosterNode_new (xmpp self) (normalize node) (db self)])).
Proof.
  intros Hin. unfold add, keys in *. cbn.
  unfold mbind, M_bind, bind, get. by rewrite decide_False.
Qed.

Lemma add_returns node self : add node self = (Ok tt, added self node).
Proof.
  unfold added. destruct (decide (normalize node ∈ keys self)).
  - by rewrite add_present.
  - by rewrite add_absent.
Qed.

Lemma keys_added node self :
  keys (added self node) = keys self ∪ {[normalize node]}.
Proof.
  unfold added. destruct (decide (normalize node ∈ keys self)) as [Hin|Hin].
  - rewrite add_present by done. apply set_eq. intros k.
    rewrite elem_of_union, elem_of_singleton.
    split; [by left|]. by intros [?| ->].
  - rewrite add_absent by done. unfold keys. cbn.
    rewrite dom_insert_L. apply (comm_L (∪)).
Qed.

Lemma rosters_added node self :
  _rosters self ⊆ _rosters (added self node).
Proof.
  unfold added. destruct (decide (normalize node ∈ keys self)) as [Hin|Hin].
  - by rewrite add_present.
  - rewrite add_absent by done. cbn. apply insert_subseteq.
    by apply not_elem_of_dom.
Qed.

Lemma consistent_added node self :
  consistent self → consistent (added self node).
Proof.
  intros [Hk Hn]. unfold added.
  destruct (decide (normalize node ∈ keys self)) as [Hin|Hin].
  { by rewrite add_present. }
  rewrite add_absent by done. split; cbn.
  - intros k r. rewrite lookup_insert. case_decide as Hd.
    + intros [= <-]. subst k.
      exists (RosterNode_new (xmpp self) (normalize node) (db self)).
      split; [|done]. by rewrite lookup_app_r, Nat.sub_diag.
    + intros Hr. destruct (Hk _ _ Hr) as (n & Hl & Hj).
      exists n. split; [|done]. by apply lookup_app_l_Some.
  - intros r n Hl. apply lookup_app_Some in Hl as [Hl|[Hge Hl]].
    + pose proof (Hn _ _ Hl) as Hr. rewrite lookup_insert_ne; [done|].
      intros Heq. apply Hin. unfold keys. rewrite Heq.
      apply elem_of_dom. eauto.
    + destruct (r - length (nodes self)) as [|i] eqn:Hi; [|done].
      cbn in Hl. injection Hl as <-. cbn.
      rewrite lookup_insert_eq. f_equal. lia.
Qed.

(** The seeding loop [for node in entries: self.add(node)]. *)
Lemma for_each_add es self :
  for_each es add self = (Ok tt, foldl added self es).
Proof.
  revert self. induction es as [|e es IH]; intros self; [done|].
  cbn. unfold mbind, M_bind, bind. rewrite add_returns. apply IH.
Qed.

Lemma keys_foldl_added es self :
  keys (foldl added self es) = keys self ∪ list_to_set (normalize <$> es).
Proof.
  revert self. induction es as [|e es IH]; intros self; cbn.
  - by rewrite (right_id_L ∅ (∪)).
  - rewrite IH, keys_added. by rewrite (assoc_L (∪)).
Qed.

Lemma rosters_foldl_added es self :
  _rosters self ⊆ _rosters (foldl added self es).
Proof.
  revert self. induction es as [|e es IH]; intros self; cbn; [done|].
  etrans; [apply rosters_added|apply IH].
Qed.

Lemma consistent_foldl_added es self :
  consistent self → consistent (foldl added self es).
Proof.
  revert self. induction es as [|e es IH]; intros self Hc; cbn; [done|].
  by apply IH, consistent_added.
Qed.

(** The store only grows, and a node object that was there is untouched;
    the objects created on the way are fresh (nothing recorded on them). *)
Lemma nodes_added node self :
  ∃ new, nodes (added self node) = nodes self ++ new ∧
         Forall (λ n, node_calls n = []) new.
Proof.
  unfold added. destruct (decide (normalize node ∈ keys self)) as [Hin|Hin].
  - rewrite add_present by done. exists []. by rewrite app_nil_r.
  - rewrite add_absent by done. cbn. eexists. split; [done|].
    by constructor.
Qed.

Lemma nodes_foldl_added es self :
  ∃ new, nodes (foldl added self es) = nodes self ++ new ∧
         Forall (λ n, node_calls n = []) new.
Proof.
  revert self. induction es as [|e es IH]; intros self; cbn.
  - exists []. by rewrite app_nil_r.
  - destruct (IH (added self e)) as (new2 & -> & H2).
    destruct (nodes_added e self) as (new1 & -> & H1).
    exists (new1 ++ new2). rewrite <-(assoc_L (++)). split; [done|].
    by apply Forall_app.
Qed.

(** ** [__getitem__] *)

Lemma rosters_getitem_Some key self r :
  _rosters self !! key = Some r → rosters_getitem key self = (Ok r, self).
Proof.
  intros H. unfold rosters_getitem, mbind, M_bind, bind, get. by rewrite H.
Qed.

Lemma getitem_present key self r :
  _rosters self !! normalize key = Some r → getitem key self = (Ok r, self).
Proof.
  intros H. unfold getitem. cbn. unfold mbind, M_bind, bind, get.
  rewrite decide_True by (apply elem_of_dom; eauto). cbn.
  by apply rosters_getitem_Some.
Qed.

Lemma getitem_absent key self :
  normalize key ∉ keys self →
  getitem key self =
    (Ok (length (nodes self)),
     mkRoster (xmpp self) (db self) (auto_authorize self) (auto_subscribe self)
       (<[normalize key := length (nodes self)]> (_rosters self))
       (nodes self ++ [created_node self (normalize key)])).
Proof.
  intros Hin. unfold getitem. cbn. unfold mbind, M_bind, bind, get.
  rewrite decide_False by done.
  rewrite add_absent by done. cbn.
  set (k := normalize key).
  erewrite rosters_getitem_Some by (cbn; apply lookup_insert_eq).
  unfold call_node at 1. cbn.
  erewrite rosters_getitem_Some by (cbn; apply lookup_insert_eq).
  unfold call_node, modify. cbn.
  erewrite rosters_getitem_Some by (cbn; apply lookup_insert_eq).
  do 2 f_equal. unfold with_nodes. cbn. f_equal.
  replace (length (nodes self)) with (length (nodes self) + 0) by lia.
  by rewrite !alter_app_r.
Qed.

(** ** Loops that call every node *)

(** [touch] changes the store only. *)
Lemma with_nodes_touch h c r self :
  with_nodes h (touch c r self) = with_nodes h self.
Proof. by destruct self. Qed.

Lemma with_nodes_id self : with_nodes (nodes self) self = self.
Proof. by destruct self. Qed.

(** A loop over keys whose body looks the node up and calls it. *)
Lemma for_each_touch (body : string → M unit) c :
  (∀ self k r, _rosters self !! k = Some r →
               body k self = (Ok tt, touch c r self)) →
  ∀ ks rs self,
    Forall2 (λ k r, _rosters self !! k = Some r) ks rs →
    for_each ks body self =
      (Ok tt,
       with_nodes (foldl (λ h r, alter (record_call c) r h) (nodes self) rs)
                  self).
Proof.
  intros Hbody ks. induction ks as [|k ks IH]; intros rs self HF.
  - apply Forall2_nil_inv_l in HF as ->. cbn. by rewrite with_nodes_id.
  - apply Forall2_cons_inv_l in HF as (r & rs' & Hr & HF & ->).
    cbn. unfold mbind, M_bind, bind. rewrite (Hbody _ _ _ Hr).
    rewrite (IH rs' (touch c r self)) by done.
    by rewrite with_nodes_touch.
Qed.

Lemma lookup_foldl_alter {A} (f : A → A) (rs : list nat) (h : list A) i :
  NoDup rs →
  foldl (λ h r, alter f r h) h rs !! i =
    if decide (i ∈ rs) then f <$> h !! i else h !! i.
Proof.
  revert h. induction rs as [|r rs IH]; intros h Hnd; cbn.
  { rewrite decide_False; [done|]. apply not_elem_of_nil. }
  apply NoDup_cons in Hnd as [Hr Hnd]. rewrite IH by done.
  destruct (decide (i = r)) as [->|Hne].
  - rewrite decide_False by done. rewrite decide_True by left.
    apply list_lookup_alter_eq.
  - rewrite list_lookup_alter_ne by done.
    destruct (decide (i ∈ rs)) as [Hi|Hi].
    + rewrite decide_True; [done|]. by right.
    + rewrite decide_False; [done|]. by intros [?|?]%elem_of_cons.
Qed.

(** The keys in iteration order and the references they are mapped to. *)
Lemma iter_refs self :
  Forall2 (λ k r, _rosters self !! k = Some r)
          (iter self) (map_to_list (_rosters self)).*2.
Proof.
  unfold iter.
  assert (∀ l : list (string * ref),
    (∀ k r, (k, r) ∈ l → _rosters self !! k = Some r) →
    Forall2 (λ k r, _rosters self !! k = Some r) l.*1 l.*2) as H.
  { induction l as [|[k r] l IH]; intros Hl; cbn; constructor.
    - apply Hl. left.
    - apply IH. intros k' r' Hin. apply Hl. by right. }
  apply H. intros k r. apply elem_of_map_to_list.
Qed.

Lemma consistent_inj self k1 k2 r :
  consistent self →
  _rosters self !! k1 = Some r → _rosters self !! k2 = Some r → k1 = k2.
Proof.
  intros [Hk _] H1 H2.
  destruct (Hk _ _ H1) as (n1 & Hn1 & <-).
  destruct (Hk _ _ H2) as (n2 & Hn2 & <-). congruence.
Qed.

Lemma NoDup_refs self :
  consistent self → NoDup (map_to_list (_rosters self)).*2.
Proof.
  intros Hc. apply NoDup_fmap_2_strong; [|apply NoDup_map_to_list].
  intros [k1 r1] [k2 r2] H1%elem_of_map_to_list H2%elem_of_map_to_list.
  cbn. intros <-. f_equal. by eapply consistent_inj.
Qed.

(** In a consistent roster, calling every node of the dictionary once
    calls every node object in the store once. *)
Lemma touch_all_nodes c self :
  consistent self →
  foldl (λ h r, alter (record_call c) r h) (nodes self)
        (map_to_list (_rosters self)).*2
  = record_call c <$> nodes self.
Proof.
  intros Hc. apply list_eq. intros i.
  rewrite lookup_foldl_alter by by apply NoDup_refs.
  rewrite list_lookup_fmap.
  destruct (nodes self !! i) as [n|] eqn:Hn; [|by case_decide].
  rewrite decide_True; [done|].
  apply list_elem_of_fmap. exists (node_jid n, i). split; [done|].
  apply elem_of_map_to_list. by apply (node_has_key _ Hc).
Qed.

Lemma for_each_touch_all (body : string → M unit) c self :
  (∀ self k r, _rosters self !! k = Some r →
               body k self = (Ok tt, touch c r self)) →
  consistent self →
  for_each (iter self) body self =
    (Ok tt, with_nodes (record_call c <$> nodes self) self).
Proof.
  intros Hbody Hc.
  rewrite (for_each_touch body c Hbody _ _ _ (iter_refs self)).
  by rewrite touch_all_nodes.
Qed.

(** Recording calls keeps the dictionary and the store in agreement. *)
Lemma consistent_record_all c self :
  consistent self →
  consistent (with_nodes (record_call c <$> nodes self) self).
Proof.
  intros [Hk Hn]. split; cbn.
  - intros k r Hr. destruct (Hk _ _ Hr) as (n & Hl & Hj).
    exists (record_call c n). by rewrite list_lookup_fmap, Hl.
  - intros r n'. rewrite list_lookup_fmap.
    destruct (nodes self !! r) as [n|] eqn:Hl; [|done].
    intros [= <-]. cbn. by apply Hn.
Qed.

(** ** [reset] and [set_backend] *)

Lemma reset_spec self :
  consistent self →
  reset self = (Ok tt, with_nodes (record_call Reset <$> nodes self) self).
Proof.
  intros Hc. unfold reset. unfold mbind at 1. unfold M_bind, bind, get.
  apply for_each_touch_all; [|done].
  intros s k r Hr. unfold mbind, M_bind, bind.
  by rewrite (getitem_present (Str k) s r).
Qed.

Lemma set_backend_Some_spec d self :
  consistent self →
  set_backend (Some d) self =
    (Ok tt,
     with_nodes (record_call (SetBackend (Some d)) <$> nodes (seeded d self))
                (seeded d self)).
Proof.
  intros Hc. unfold set_backend, mbind, M_bind, bind, modify, get. cbn.
  rewrite for_each_add. fold (seeded d self).
  apply (for_each_touch_all _ (SetBackend (Some d))).
  - intros s k r Hr. unfold mbind, M_bind, bind.
    by rewrite (rosters_getitem_Some k s r).
  - apply consistent_foldl_added. by destruct Hc.
Qed.

Lemma set_backend_None_spec self :
  set_backend None self =
    (Raise (AttributeError "NoneType" "entries"), with_db None self).
Proof. reflexivity. Qed.

(** ** Node objects are kept *)

Lemma same_object_refl n : same_object n n.
Proof. by repeat split. Qed.

Lemma same_object_trans n1 n2 n3 :
  same_object n1 n2 → same_object n2 n3 → same_object n1 n3.
Proof.
  intros (?&?&?&?) (?&?&?&?). repeat split; try congruence. by etrans.
Qed.

Lemma same_object_record c n : same_object n (record_call c n).
Proof. repeat split. cbn. by apply prefix_app_r. Qed.

Lemma extends_refl self : extends self self.
Proof. split; [done|]. intros r n Hn. exists n. auto using same_object_refl. Qed.

Lemma extends_same self self' :
  _rosters self' = _rosters self → nodes self' = nodes self →
  extends self self'.
Proof.
  intros Hm Hn. split; [by rewrite Hm|]. intros r n Hl. exists n.
  rewrite Hn. auto using same_object_refl.
Qed.

Lemma extends_trans s1 s2 s3 : extends s1 s2 → extends s2 s3 → extends s1 s3.
Proof.
  intros [Hm1 Hn1] [Hm2 Hn2]. split; [by etrans|].
  intros r n Hn. destruct (Hn1 _ _ Hn) as (n2 & H2 & Hs2).
  destruct (Hn2 _ _ H2) as (n3 & H3 & Hs3).
  exists n3. eauto using same_object_trans.
Qed.

Lemma extends_added node self : extends self (added self node).
Proof.
  split; [apply rosters_added|]. intros r n Hn.
  destruct (nodes_added node self) as (new & -> & _).
  exists n. split; [by apply lookup_app_l_Some|apply same_object_refl].
Qed.

Lemma extends_foldl_added es self : extends self (foldl added self es).
Proof.
  revert self. induction es as [|e es IH]; intros self; cbn.
  - apply extends_refl.
  - eapply extends_trans; [apply extends_added|apply IH].
Qed.

Lemma extends_touch c r self : extends self (touch c r self).
Proof.
  split; [done|]. intros r' n Hn. cbn. rewrite list_lookup_alter.
  case_decide as Hd.
  - subst r'. rewrite Hn. eexists. split; [done|apply same_object_record].
  - exists n. auto using same_object_refl.
Qed.

Lemma extends_record_all c self :
  extends self (with_nodes (record_call c <$> nodes self) self).
Proof.
  split; [done|]. intros r n Hn. cbn. rewrite list_lookup_fmap, Hn.
  eexists. split; [done|apply same_object_record].
Qed.

Lemma consistent_touch c r self : consistent self → consistent (touch c r self).
Proof.
  intros [Hk Hn]. split; cbn.
  - intros k r' Hr. destruct (Hk _ _ Hr) as (n & Hl & Hj).
    rewrite list_lookup_alter. case_decide as Hd.
    + subst r'. rewrite Hl. by exists (record_call c n).
    + by exists n.
  - intros r' n'. rewrite list_lookup_alter. case_decide as Hd.
    + subst r'. destruct (nodes self !! r) as [n|] eqn:Hl; [|done].
      intros [= <-]. cbn. by apply Hn.
    + apply Hn.
Qed.

Lemma getitem_absent_touch key self :
  normalize key ∉ keys self →
  getitem key self =
    (Ok (length (nodes self)),
     touch (SetAutoSubscribe (auto_subscribe self)) (length (nodes self))
       (touch (SetAutoAuthorize (auto_authorize self)) (length (nodes self))
          (added self (Str (normalize key))))).
Proof.
  intros Hin. rewrite getitem_absent by done. f_equal.
  unfold added. rewrite add_absent by done. unfold touch, with_nodes. cbn.
  f_equal.
  rewrite (alter_app_r_alt _ (nodes self)) by lia.
  rewrite Nat.sub_diag. cbn -[alter].
  rewrite (alter_app_r_alt _ (nodes self)) by lia.
  by rewrite Nat.sub_diag.
Qed.

(** Every method, returning or raising, and every assignment to a default
    flag keeps the agreement and keeps every node object. *)
Lemma step_keeps self self' :
  consistent self → step self self' → consistent self' ∧ extends self self'.
Proof.
  intros Hc Hstep. destruct Hstep as
    [node self res self' H|key self res self' H|d self res self' H
    |self res self' H|b self|b self].
  - rewrite add_returns in H. injection H as _ <-.
    auto using consistent_added, extends_added.
  - destruct (decide (normalize key ∈ keys self)) as [Hin|Hin].
    + apply elem_of_keys in Hin as [r Hr].
      rewrite (getitem_present _ _ _ Hr) in H. injection H as _ <-.
      auto using extends_refl.
    + rewrite getitem_absent_touch in H by done. injection H as _ <-.
      split.
      * by do 2 apply consistent_touch; apply consistent_added.
      * eapply extends_trans; [apply extends_added|].
        eapply extends_trans; apply extends_touch.
  - destruct d as [d|].
    + rewrite set_backend_Some_spec in H by done. injection H as _ <-.
      assert (consistent (seeded d self)) as Hs.
      { apply consistent_foldl_added. by destruct Hc. }
      split; [by apply consistent_record_all|].
      eapply extends_trans; [|apply extends_record_all].
      eapply extends_trans; [|apply extends_foldl_added].
      by apply extends_same.
    + rewrite set_backend_None_spec in H. injection H as _ <-.
      split; [by destruct Hc|]. by apply extends_same.
  - rewrite reset_spec in H by done. injection H as _ <-.
    auto using consistent_record_all, extends_record_all.
  - split; [by destruct Hc|]. by apply extends_same.
  - split; [by destruct Hc|]. by apply extends_same.
Qed.

(** ** Construction *)

Lemma init_None x : init x None = (Ok tt, mkRoster x None true true ∅ []).
Proof. reflexivity. Qed.

Lemma init_Some x d :
  init x (Some d) =
    (Ok tt, foldl added (mkRoster x (Some d) true true ∅ []) (entries d)).
Proof.
  unfold init, mbind, M_bind, bind, get. cbn. apply for_each_add.
Qed.

Lemma consistent_blank x d : consistent (mkRoster x d true true ∅ []).
Proof. split; cbn; intros ??; [by rewrite lookup_empty|done]. Qed.

Lemma init_consistent x d res self : init x d = (res, self) → consistent self.
Proof.
  destruct d as [d|].
  - rewrite init_Some. intros [= _ <-].
    apply consistent_foldl_added, consistent_blank.
  - rewrite init_None. intros [= _ <-]. apply consistent_blank.
Qed.

Lemma reachable_consistent self : reachable self → consistent self.
Proof.
  induction 1 as [x d res self H|self self' _ IH Hstep].
  - by eapply init_consistent.
  - by apply (step_keeps self self').
Qed.

Lemma consistent_one_node self : consistent self → one_node_per_jid self.
Proof.
  intros [_ Hn] r1 r2 n1 n2 H1 H2 Hj.
  apply Hn in H1, H2. rewrite Hj in H1. congruence.
Qed.

Lemma steps_keep self self' :
  consistent self → steps self self' → consistent self' ∧ extends self self'.
Proof.
  intros Hc Hs. induction Hs as [self|self self1 self2 H1 _ IH].
  - auto using extends_refl.
  - destruct (step_keeps _ _ Hc H1) as [Hc1 He1].
    destruct (IH Hc1) as [Hc2 He2]. eauto using extends_trans.
Qed.

Lemma NoDup_iter self : NoDup (iter self).
Proof. apply NoDup_fst_map_to_list. Qed.

Lemma elem_of_iter self k : k ∈ iter self ↔ k ∈ keys self.
Proof.
  unfold iter, keys. rewrite elem_of_dom. split.
  - intros ([k' r] & -> & H%elem_of_map_to_list)%list_elem_of_fmap. eauto.
  - intros [r Hr]. apply list_elem_of_fmap. exists (k, r).
    split; [done|]. by apply elem_of_map_to_list.
Qed.

Lemma filter_absent (x : string) (l : list string) :
  x ∉ l → filter (λ k, k = x) l = [].
Proof.
  induction l as [|y l IH]; [done|]. intros Hx.
  rewrite filter_cons, decide_False.
  - apply IH. intros ?. apply Hx. by right.
  - intros ->. apply Hx. left.
Qed.

Lemma once_in_NoDup (x : string) (l : list string) :
  NoDup l → x ∈ l → length (filter (λ k, k = x) l) = 1.
Proof.
  induction 1 as [|y l Hy Hnd IH]; [by intros ?%elem_of_nil|].
  rewrite filter_cons. intros [->|Hin]%elem_of_cons.
  - rewrite decide_True by done. cbn. by rewrite filter_absent.
  - rewrite decide_False by (intros ->; done). auto.
Qed.

(** A lookup always returns, with the node stored under the computed key;
    at most that key is new. *)
Lemma getitem_returns key self :
  ∃ r self',
    getitem key self = (Ok r, self') ∧
    _rosters self' !! normalize key = Some r ∧
    keys self' = keys self ∪ {[normalize key]}.
Proof.
  destruct (decide (normalize key ∈ keys self)) as [Hin|Hin].
  - pose proof Hin as [r Hr]%elem_of_keys. exists r, self.
    rewrite (getitem_present key self r Hr). repeat split; [done|].
    apply set_eq. intros k. rewrite elem_of_union, elem_of_singleton.
    split; [by left|]. by intros [?| ->].
  - eexists _, _. rewrite getitem_absent by done.
    split; [done|]. split.
    + cbn. apply lookup_insert_eq.
    + unfold keys. cbn. rewrite dom_insert_L. apply (comm_L (∪)).
Qed.

(** ** Lookup is keyed by what the code computes from the argument *)

(** C1, as the code has it: identity values with the same key -- the bare
    form of a JID object, a plain string as it is written -- resolve to the
    same single node object; the first lookup leaves the dictionary with
    exactly that key added, the second lookup changes nothing. *)
Theorem getitem_same_key (self : Roster) (i1 i2 : pyval) :
  normalize i1 = normalize i2 →
  ∃ r self1,
    getitem i1 self = (Ok r, self1) ∧
    getitem i2 self1 = (Ok r, self1) ∧
    _rosters self1 !! normalize i1 = Some r ∧
    keys self1 = keys self ∪ {[normalize i1]}.
Proof.
  intros Heq.
  destruct (getitem_returns i1 self) as (r & self1 & H1 & Hr & Hk).
  exists r, self1. repeat split; [done| |done|done].
  apply getitem_present. by rewrite <-Heq.
Qed.

Lemma getitem_same_key_witness :
  normalize (Jid full_jid) = normalize (Str "user@example.com") ∧
  ∃ r self1,
    getitem (Jid full_jid) blank = (Ok r, self1) ∧
    getitem (Str "user@example.com") self1 = (Ok r, self1) ∧
    _rosters self1 !! normalize (Jid full_jid) = Some r ∧
    keys self1 = keys blank ∪ {[normalize (Jid full_jid)]}.
Proof.
  split; [reflexivity|].
  apply (getitem_same_key blank (Jid full_jid) (Str "user@example.com")).
  reflexivity.
Defined.

(** C1 as stated fails on plain strings: "user@example.com/resource" and
    "user@example.com" have the same bare form, yet looking both up yields
    two node objects under two keys, the first keyed by the full form. *)
Lemma getitem_full_string_own_node :
  bare_form (Str "user@example.com/resource")
    = bare_form (Str "user@example.com") ∧
  ∃ r1 r2 self1 self2,
    getitem (Str "user@example.com/resource") blank = (Ok r1, self1) ∧
    getitem (Str "user@example.com") self1 = (Ok r2, self2) ∧
    r1 ≠ r2 ∧
    ("user@example.com" ∉ keys self1) ∧
    ("user@example.com/resource" ∈ keys self1) ∧
    size (keys self2) = 2.
Proof.
  split; [reflexivity|].
  eexists 0, 1, _, _. split; [by vm_compute|]. split; [by vm_compute|].
  split; [done|]. split; [|split].
  - apply not_elem_of_keys. by vm_compute.
  - apply elem_of_keys. eexists. by vm_compute.
  - by vm_compute.
Qed.

(** ** [add] is idempotent *)

(** C2, as the code has it: after [add(i)] the key computed from [i] (the
    bare form of a JID object, a plain string as written) is in the
    dictionary exactly once, and a second [add(i)] returns without changing
    anything: the roster, its dictionary and every node object are as the
    first call left them. *)
Theorem add_idempotent (self : Roster) (i : pyval) :
  ∃ self1,
    add i self = (Ok tt, self1) ∧
    add i self1 = (Ok tt, self1) ∧
    keys self1 = keys self ∪ {[normalize i]} ∧
    length (filter (λ k, k = normalize i) (iter self1)) = 1.
Proof.
  exists (added self i). rewrite add_returns.
  assert (normalize i ∈ keys (added self i)) as Hin.
  { rewrite keys_added. apply elem_of_union_r. by apply elem_of_singleton. }
  split; [done|]. split; [by apply add_present|].
  split; [apply keys_added|].
  apply once_in_NoDup; [apply NoDup_iter|by apply elem_of_iter].
Qed.

(** C2 as stated fails on a plain string in full form: after adding
    "user@example.com/resource" twice the dictionary holds that string, and
    its bare form "user@example.com" is not a key at all. *)
Lemma add_full_string_keeps_resource :
  bare_form (Str "user@example.com/resource") = "user@example.com" ∧
  ∃ self1 self2,
    add (Str "user@example.com/resource") blank = (Ok tt, self1) ∧
    add (Str "user@example.com/resource") self1 = (Ok tt, self2) ∧
    (bare_form (Str "user@example.com/resource") ∉ keys self2) ∧
    iter self2 = ["user@example.com/resource"].
Proof.
  split; [reflexivity|].
  eexists _, _. split; [by vm_compute|]. split; [by vm_compute|]. split.
  - apply not_elem_of_keys. by vm_compute.
  - by vm_compute.
Qed.

(** ** No identity value is rejected *)

(** C8, as the code has it: [add] and [__getitem__] validate nothing.  For
    every identity value, a JID object or any plain string, both return
    normally, and the key computed from the argument is then in the
    dictionary ([__getitem__] returns the node stored under it). *)
Theorem identity_never_rejected (self : Roster) (i : pyval) :
  (∃ self', add i self = (Ok tt, self') ∧ normalize i ∈ keys self') ∧
  (∃ r self', getitem i self = (Ok r, self') ∧
              _rosters self' !! normalize i = Some r).
Proof.
  split.
  - exists (added self i). split; [apply add_returns|].
    rewrite keys_added. apply elem_of_union_r. by apply elem_of_singleton.
  - destruct (getitem_returns i self) as (r & self1 & H & Hr & _).
    by exists r, self1.
Qed.

(** C8 as stated fails: the empty string names no identity at all, yet
    [add] and [__getitem__] accept it without any error and the dictionary
    then has the empty string as a key. *)
Lemma empty_string_accepted :
  ∃ self1 r self2,
    add (Str "") blank = (Ok tt, self1) ∧
    iter self1 = [""] ∧
    getitem (Str "") blank = (Ok r, self2) ∧
    iter self2 = [""].
Proof. eexists _, 0, _. repeat split; by vm_compute. Qed.

(** ** Lookup of a known identity reads only *)

(** C10: when the key computed from the argument is already in the
    dictionary, [__getitem__] returns the stored node and the roster after
    the call is the roster before it: same dictionary, same node objects
    with nothing recorded on them, hence no write of [auto_authorize] or
    [auto_subscribe]. *)
Theorem getitem_existing_reads_only (self : Roster) (key : pyval) :
  normalize key ∈ keys self →
  ∃ r, _rosters self !! normalize key = Some r ∧
       getitem key self = (Ok r, self).
Proof.
  intros [r Hr]%elem_of_keys. exists r. split; [done|].
  by apply getitem_present.
Qed.

Lemma getitem_existing_reads_only_witness :
  normalize (Jid (mkJID "a@x/work")) ∈ keys seeded1 ∧
  ∃ r, _rosters seeded1 !! normalize (Jid (mkJID "a@x/work")) = Some r ∧
       getitem (Jid (mkJID "a@x/work")) seeded1 = (Ok r, seeded1).
Proof.
  assert (normalize (Jid (mkJID "a@x/work")) ∈ keys seeded1) as H.
  { apply elem_of_keys. exists 0. vm_compute. reflexivity. }
  split; [exact H|].
  exact (getitem_existing_reads_only seeded1 (Jid (mkJID "a@x/work")) H).
Defined.

(** ** Where the defaults are written *)

Lemma init_Some_nodes_fresh x d self r n :
  init x (Some d) = (Ok tt, self) →
  nodes self !! r = Some n → node_calls n = [].
Proof.
  rewrite init_Some. intros [= <-] Hn.
  destruct (nodes_foldl_added (entries d) (mkRoster x (Some d) true true ∅ []))
    as (new & Heq & Hnew).
  rewrite Heq in Hn. cbn in Hn.
  by apply (Forall_lookup_1 _ _ _ _ Hnew Hn).
Qed.

(** C3: construction with a datastore returns a roster whose keys are those
    computed from the reported identities, and nothing was written into any
    of these nodes -- also when such a node is later looked up through
    [__getitem__], which returns it unchanged.  A lookup of an identity the
    roster does not know returns a new node into which the roster's
    [auto_authorize] and [auto_subscribe], as they are at that moment, were
    written (and nothing else). *)
Theorem defaults_written_on_lookup_only
    (x : xmpp_ref) (d : datastore) (self : Roster) (key : pyval) :
  normalize key ∉ keys self →
  (∃ constructed,
     init x (Some d) = (Ok tt, constructed) ∧
     keys constructed = list_to_set (normalize <$> entries d) ∧
     ∀ k, k ∈ keys constructed →
       ∃ r n, getitem (Str k) constructed = (Ok r, constructed) ∧
              nodes constructed !! r = Some n ∧
              node_calls n = [] ∧
              written_authorize n = None ∧ written_subscribe n = None) ∧
  (∃ r self' n,
     getitem key self = (Ok r, self') ∧
     nodes self' !! r = Some n ∧
     node_of self' (normalize key) = Some n ∧
     node_calls n = [SetAutoAuthorize (auto_authorize self);
                     SetAutoSubscribe (auto_subscribe self)] ∧
     written_authorize n = Some (auto_authorize self) ∧
     written_subscribe n = Some (auto_subscribe self)).
Proof.
  intros Hin. split.
  - eexists. split; [apply init_Some|].
    set (c := foldl added _ _).
    assert (init x (Some d) = (Ok tt, c)) as Hinit by apply init_Some.
    split.
    { unfold c. rewrite keys_foldl_added. unfold keys at 1. cbn.
      by rewrite dom_empty_L, (left_id_L ∅ (∪)). }
    intros k [r Hr]%elem_of_keys.
    destruct (key_has_node _ (init_consistent _ _ _ _ Hinit) _ _ Hr)
      as (n & Hn & _).
    exists r, n. split; [by apply getitem_present|]. split; [done|].
    pose proof (init_Some_nodes_fresh _ _ _ _ _ Hinit Hn) as Hcalls.
    unfold written_authorize, written_subscribe. by rewrite Hcalls.
  - eexists _, _, (created_node self (normalize key)).
    rewrite getitem_absent by done. split; [done|].
    assert ((nodes self ++ [created_node self (normalize key)])
              !! length (nodes self)
            = Some (created_node self (normalize key))) as Hl.
    { by rewrite lookup_app_r, Nat.sub_diag. }
    split; [exact Hl|]. split; [|done].
    unfold node_of. cbn. by rewrite lookup_insert_eq.
Qed.

Lemma defaults_written_on_lookup_only_witness :
  (normalize (Str "c@x") ∉ keys (with_auto_authorize false seeded1)) ∧
  (∃ constructed,
     init 0 (Some store1) = (Ok tt, constructed) ∧
     keys constructed = list_to_set (normalize <$> entries store1) ∧
     ∀ k, k ∈ keys constructed →
       ∃ r n, getitem (Str k) constructed = (Ok r, constructed) ∧
              nodes constructed !! r = Some n ∧
              node_calls n = [] ∧
              written_authorize n = None ∧ written_subscribe n = None) ∧
  (∃ r self' n,
     getitem (Str "c@x") (with_auto_authorize false seeded1) = (Ok r, self') ∧
     nodes self' !! r = Some n ∧
     node_of self' (normalize (Str "c@x")) = Some n ∧
     node_calls n = [SetAutoAuthorize false; SetAutoSubscribe true] ∧
     written_authorize n = Some false ∧
     written_subscribe n = Some true).
Proof.
  assert (normalize (Str "c@x") ∉ keys (with_auto_authorize false seeded1))
    as H.
  { apply not_elem_of_keys. vm_compute. reflexivity. }
  split; [exact H|].
  exact (defaults_written_on_lookup_only 0 store1
           (with_auto_authorize false seeded1) (Str "c@x") H).
Defined.

(** ** Defaults are copied, not linked *)

(** C4: assigning a new value to the roster's [auto_authorize] (or
    [auto_subscribe]) leaves every node that is in the roster as it was --
    same object under the same key, nothing recorded on it -- and looking
    the node up afterwards returns it without writing the new default. *)
Theorem defaults_not_linked
    (self : Roster) (k : string) (r : ref) (n : RosterNode) (b : bool) :
  _rosters self !! k = Some r →
  nodes self !! r = Some n →
  (node_of (with_auto_authorize b self) k = Some n ∧
   getitem (Str k) (with_auto_authorize b self)
     = (Ok r, with_auto_authorize b self) ∧
   nodes (with_auto_authorize b self) !! r = Some n) ∧
  (node_of (with_auto_subscribe b self) k = Some n ∧
   getitem (Str k) (with_auto_subscribe b self)
     = (Ok r, with_auto_subscribe b self) ∧
   nodes (with_auto_subscribe b self) !! r = Some n).
Proof.
  intros Hr Hn. unfold node_of. cbn. rewrite Hr. cbn.
  repeat split; try done; by apply getitem_present.
Qed.

Lemma defaults_not_linked_witness :
  _rosters seeded1 !! "a@x" = Some 0 ∧
  nodes seeded1 !! 0 = Some (RosterNode_new 0 "a@x" (Some store1)) ∧
  (node_of (with_auto_authorize false seeded1) "a@x"
     = Some (RosterNode_new 0 "a@x" (Some store1)) ∧
   getitem (Str "a@x") (with_auto_authorize false seeded1)
     = (Ok 0, with_auto_authorize false seeded1) ∧
   nodes (with_auto_authorize false seeded1) !! 0
     = Some (RosterNode_new 0 "a@x" (Some store1))) ∧
  (node_of (with_auto_subscribe false seeded1) "a@x"
     = Some (RosterNode_new 0 "a@x" (Some store1)) ∧
   getitem (Str "a@x") (with_auto_subscribe false seeded1)
     = (Ok 0, with_auto_subscribe false seeded1) ∧
   nodes (with_auto_subscribe false seeded1) !! 0
     = Some (RosterNode_new 0 "a@x" (Some store1))).
Proof.
  assert (_rosters seeded1 !! "a@x" = Some 0) as Hr
    by (vm_compute; reflexivity).
  assert (nodes seeded1 !! 0 = Some (RosterNode_new 0 "a@x" (Some store1)))
    as Hn by (vm_compute; reflexivity).
  split; [exact Hr|]. split; [exact Hn|].
  exact (defaults_not_linked seeded1 "a@x" 0 _ false Hr Hn).
Defined.

(** ** [set_backend] without a datastore *)

(** C6: [set_backend(None)] does not complete.  The new reference is
    stored, then the enumeration is attempted on it without any check and
    raises (here Python's AttributeError on [None.entries]); no node is
    added and no node's backend setter is called. *)
Theorem set_backend_None_raises (self : Roster) :
  ∃ e self',
    set_backend None self = (Raise e, self') ∧
    e = AttributeError "NoneType" "entries" ∧
    db self' = None ∧
    _rosters self' = _rosters self ∧
    nodes self' = nodes self.
Proof. eexists _, _. by rewrite set_backend_None_spec. Qed.

(** ** [reset] *)

(** C7: on a roster obtained from the constructor and the methods,
    [reset()] returns, having called [reset] once on the node of every key
    that was in [keys()] when it started; the dictionary is the same
    afterwards (same keys, same node objects) and no node object was
    created. *)
Theorem reset_calls_every_node (self : Roster) :
  reachable self →
  ∃ self',
    reset self = (Ok tt, self') ∧
    keys self' = keys self ∧
    _rosters self' = _rosters self ∧
    length (nodes self') = length (nodes self) ∧
    ∀ k, k ∈ keys self →
      ∃ r n, _rosters self !! k = Some r ∧
             nodes self !! r = Some n ∧
             nodes self' !! r = Some (record_call Reset n) ∧
             reset_count (record_call Reset n) = S (reset_count n).
Proof.
  intros Hc%reachable_consistent. eexists. rewrite reset_spec by done.
  split; [done|]. split; [done|]. split; [done|]. split.
  { cbn. apply length_fmap. }
  intros k [r Hr]%elem_of_keys.
  destruct (key_has_node _ Hc _ _ Hr) as (n & Hn & _).
  exists r, n. repeat split; [done..| |].
  - cbn. by rewrite list_lookup_fmap, Hn.
  - unfold reset_count. cbn. rewrite filter_app, length_app.
    rewrite filter_cons, decide_True by done. cbn. lia.
Qed.

Lemma reset_calls_every_node_witness :
  reachable seeded1 ∧
  ∃ self',
    reset seeded1 = (Ok tt, self') ∧
    keys self' = keys seeded1 ∧
    _rosters self' = _rosters seeded1 ∧
    length (nodes self') = length (nodes seeded1) ∧
    ∀ k, k ∈ keys seeded1 →
      ∃ r n, _rosters seeded1 !! k = Some r ∧
             nodes seeded1 !! r = Some n ∧
             nodes self' !! r = Some (record_call Reset n) ∧
             reset_count (record_call Reset n) = S (reset_count n).
Proof.
  assert (reachable seeded1) as H.
  { apply (reachable_init 0 (Some store1) (Ok tt)). vm_compute. reflexivity. }
  split; [exact H|]. exact (reset_calls_every_node seeded1 H).
Defined.

(** ** [set_backend] with a datastore *)

(** What [set_backend(d)] does on a consistent roster, for any [d]. *)
Lemma set_backend_Some_calls d self :
  consistent self →
  ∃ self',
    set_backend (Some d) self = (Ok tt, self') ∧
    keys self' = keys self ∪ list_to_set (normalize <$> entries d) ∧
    ∀ k, k ∈ keys self' →
      ∃ r n', _rosters self' !! k = Some r ∧
              nodes self' !! r = Some n' ∧
              node_jid n' = k ∧
              node_calls n' = calls_on self r ++ [SetBackend (Some d)].
Proof.
  intros Hc. eexists. rewrite set_backend_Some_spec by done.
  split; [done|].
  assert (consistent (seeded d self)) as Hs.
  { apply consistent_foldl_added. by destruct Hc. }
  split.
  { unfold keys at 1. cbn. fold (keys (seeded d self)).
    unfold seeded. by rewrite keys_foldl_added. }
  intros k [r Hr]%elem_of_keys. cbn in Hr.
  destruct (key_has_node _ Hs _ _ Hr) as (n & Hn & Hj).
  exists r, (record_call (SetBackend (Some d)) n).
  split; [done|]. split; [cbn; by rewrite list_lookup_fmap, Hn|].
  split; [done|]. cbn. f_equal.
  destruct (nodes_foldl_added (entries d) (with_db (Some d) self))
    as (new & Heq & Hnew).
  fold (seeded d self) in Heq. rewrite Heq in Hn. cbn in Hn.
  unfold calls_on. apply lookup_app_Some in Hn as [Hn|[Hge Hn]].
  - by rewrite Hn.
  - rewrite (lookup_ge_None_2 _ _ Hge). cbn.
    by apply (Forall_lookup_1 _ _ _ _ Hnew Hn).
Qed.

(** C5: on a roster holding the identities A and B, [set_backend(db2)]
    with [db2] reporting A and C returns and leaves exactly the keys A, B
    and C; on the node of each of them the node-level [set_backend(db2)]
    ran exactly once: it is the one call recorded after whatever had been
    recorded on that node before (nothing, for the node created for C). *)
Theorem set_backend_merges
    (self : Roster) (db2 : datastore) (A B C : string) :
  reachable self →
  keys self = {[A; B]} →
  list_to_set (normalize <$> entries db2) = ({[A; C]} : gset string) →
  ∃ self',
    set_backend (Some db2) self = (Ok tt, self') ∧
    keys self' = {[A; B; C]} ∧
    ∀ k, k ∈ ({[A; B; C]} : gset string) →
      ∃ r n', _rosters self' !! k = Some r ∧
              nodes self' !! r = Some n' ∧
              node_jid n' = k ∧
              node_calls n' = calls_on self r ++ [SetBackend (Some db2)].
Proof.
  intros Hc%reachable_consistent HAB HAC.
  destruct (set_backend_Some_calls db2 self Hc) as (self' & Hrun & Hk & Hn).
  assert (keys self' = {[A; B; C]}) as Hkeys.
  { rewrite Hk, HAB, HAC. apply set_eq. intros k.
    rewrite !elem_of_union, !elem_of_singleton. tauto. }
  exists self'. split; [done|]. split; [done|].
  intros k Hin. apply Hn. by rewrite Hkeys.
Qed.

Lemma set_backend_merges_witness :
  reachable seeded1 ∧
  keys seeded1 = {["a@x"; "b@x"]} ∧
  list_to_set (normalize <$> entries store2)
    = ({["a@x"; "c@x"]} : gset string) ∧
  ∃ self',
    set_backend (Some store2) seeded1 = (Ok tt, self') ∧
    keys self' = {["a@x"; "b@x"; "c@x"]} ∧
    ∀ k, k ∈ ({["a@x"; "b@x"; "c@x"]} : gset string) →
      ∃ r n', _rosters self' !! k = Some r ∧
              nodes self' !! r = Some n' ∧
              node_jid n' = k ∧
              node_calls n' = calls_on seeded1 r ++ [SetBackend (Some store2)].
Proof.
  assert (reachable seeded1) as H.
  { apply (reachable_init 0 (Some store1) (Ok tt)). vm_compute. reflexivity. }
  assert (keys seeded1 = {["a@x"; "b@x"]}) as HAB
    by (vm_compute; reflexivity).
  assert (list_to_set (normalize <$> entries store2)
            = ({["a@x"; "c@x"]} : gset string)) as HAC
    by (vm_compute; reflexivity).
  split; [exact H|]. split; [exact HAB|]. split; [exact HAC|].
  exact (set_backend_merges seeded1 store2 "a@x" "b@x" "c@x" H HAB HAC).
Defined.

(** ** Nodes are never removed or replaced *)

(** C9, as the code has it: every roster obtained from the constructor and any sequence of
    [add], [__getitem__], [set_backend] and [reset] calls (returning or
    raising) and of assignments to the default flags has at most one node
    object per JID, each stored under its own JID; and whatever is done
    with the roster afterwards, each key keeps referring to the node
    object it referred to, which is still there with the JID it was
    constructed for. *)
Theorem nodes_never_removed (self self' : Roster) :
  reachable self →
  steps self self' →
  one_node_per_jid self ∧ one_node_per_jid self' ∧
  consistent self' ∧
  ∀ k r, _rosters self !! k = Some r →
    _rosters self' !! k = Some r ∧
    ∃ n n', nodes self !! r = Some n ∧ nodes self' !! r = Some n' ∧
            node_jid n = k ∧ same_object n n'.
Proof.
  intros Hc%reachable_consistent Hs.
  destruct (steps_keep _ _ Hc Hs) as [Hc' [Hm Hn]].
  split; [by apply consistent_one_node|].
  split; [by apply consistent_one_node|]. split; [done|].
  intros k r Hr. split.
  - by apply (lookup_weaken _ _ _ _ Hr).
  - destruct (key_has_node _ Hc _ _ Hr) as (n & Hl & Hj).
    destruct (Hn _ _ Hl) as (n' & Hl' & Hsame). by exists n, n'.
Qed.

Lemma nodes_never_removed_witness :
  reachable seeded1 ∧
  steps seeded1 after_reset1 ∧
  one_node_per_jid seeded1 ∧ one_node_per_jid after_reset1 ∧
  consistent after_reset1 ∧
  ∀ k r, _rosters seeded1 !! k = Some r →
    _rosters after_reset1 !! k = Some r ∧
    ∃ n n', nodes seeded1 !! r = Some n ∧ nodes after_reset1 !! r = Some n' ∧
            node_jid n = k ∧ same_object n n'.
Proof.
  assert (reachable seeded1) as H.
  { apply (reachable_init 0 (Some store1) (Ok tt)). vm_compute. reflexivity. }
  assert (steps seeded1 after_reset1) as Hs.
  { apply rtc_once. apply (step_reset seeded1 (Ok tt)).
    vm_compute. reflexivity. }
  split; [exact H|]. split; [exact Hs|].
  exact (nodes_never_removed seeded1 after_reset1 H Hs).
Defined.

(** C9 as stated fails on plain strings: the roster obtained by looking up
    "user@example.com/resource" and then "user@example.com" holds two node
    objects whose JIDs have the same bare form. *)
Lemma two_nodes_for_one_bare_identity :
  reachable two_forms ∧
  ∃ r1 r2 n1 n2,
    r1 ≠ r2 ∧
    nodes two_forms !! r1 = Some n1 ∧
    nodes two_forms !! r2 = Some n2 ∧
    before_slash (node_jid n1) = "user@example.com" ∧
    before_slash (node_jid n2) = "user@example.com".
Proof.
  split.
  - apply (reachable_step (getitem (Str "user@example.com/resource") blank).2).
    + apply (reachable_step blank).
      * apply (reachable_init 0 None (Ok tt)). vm_compute. reflexivity.
      * apply (step_getitem (Str "user@example.com/resource") blank (Ok 0)).
        vm_compute. reflexivity.
    + apply (step_getitem (Str "user@example.com") _ (Ok 1)).
      vm_compute. reflexivity.
  - exists 0, 1, (created_node blank "user@example.com/resource"),
      (created_node blank "user@example.com").
    split; [lia|]. repeat split; vm_compute; reflexivity.
Qed.

(** * Further properties of the methods *)

(** ** The store has one node object per key *)

Lemma refs_are_indices self :
  consistent self →
  (map_to_list (_rosters self)).*2 ≡ₚ seq 0 (length (nodes self)).
Proof.
  intros Hc. apply NoDup_Permutation.
  - by apply NoDup_refs.
  - apply NoDup_seq.
  - intros r. rewrite elem_of_seq, list_elem_of_fmap. split.
    + intros ([k r'] & -> & Hin%elem_of_map_to_list). cbn.
      destruct (key_has_node _ Hc _ _ Hin) as (n & Hn & _).
      apply lookup_lt_Some in Hn. lia.
    + intros [_ Hlt]. cbn in Hlt.
      destruct (lookup_lt_is_Some_2 (nodes self) r Hlt) as [n Hn].
      exists (node_jid n, r). split; [done|].
      apply elem_of_map_to_list. by apply (node_has_key _ Hc).
Qed.

(** X1: in every roster obtained from the constructor and the methods the
    number of node objects ever created equals the number of keys: no
    method constructs a [RosterNode] that it does not store, and none is
    stored twice. *)
Theorem one_object_per_key (self : Roster) :
  reachable self →
  length (nodes self) = size (keys self) ∧
  length (iter self) = size (keys self).
Proof.
  intros Hc%reachable_consistent.
  assert (length (iter self) = size (keys self)) as Hi.
  { unfold iter, keys. by rewrite length_fmap, length_map_to_list, size_dom. }
  split; [|done]. rewrite <-Hi. unfold iter.
  rewrite length_fmap, <-(length_fmap snd), (refs_are_indices self Hc).
  by rewrite length_seq.
Qed.

Lemma one_object_per_key_witness :
  reachable seeded1 ∧
  length (nodes seeded1) = size (keys seeded1) ∧
  length (iter seeded1) = size (keys seeded1).
Proof.
  assert (reachable seeded1) as H.
  { apply (reachable_init 0 (Some store1) (Ok tt)). vm_compute. reflexivity. }
  split; [exact H|]. exact (one_object_per_key seeded1 H).
Defined.

(** ** Lookups and additions touch nothing else *)

(** X2: [add] and [__getitem__] leave every other key mapped as it was and
    every node object that existed exactly as it was; at most one node
    object is created. *)
Theorem lookup_and_add_frame (self self' : Roster) (i : pyval) :
  self' = (add i self).2 ∨ self' = (getitem i self).2 →
  (∀ k, k ≠ normalize i → _rosters self' !! k = _rosters self !! k) ∧
  (∀ r n, nodes self !! r = Some n → nodes self' !! r = Some n) ∧
  (length (nodes self') ≤ S (length (nodes self)))%nat.
Proof.
  intros Hrun.
  destruct (decide (normalize i ∈ keys self)) as [Hin|Hin].
  - assert (self' = self) as ->.
    { pose proof Hin as [r Hr]%elem_of_keys. destruct Hrun as [->| ->].
      - by rewrite add_present.
      - by rewrite (getitem_present _ _ _ Hr). }
    repeat split; auto with lia.
  - assert (∃ n, _rosters self'
                   = <[normalize i := length (nodes self)]> (_rosters self) ∧
                 nodes self' = nodes self ++ [n]) as (n & Hm & Hn).
    { destruct Hrun as [->| ->].
      - rewrite add_absent by done. by eexists.
      - rewrite getitem_absent by done. by eexists. }
    rewrite Hm, Hn. repeat split.
    + intros k Hk. by rewrite lookup_insert_ne.
    + intros r n' Hl. by apply lookup_app_l_Some.
    + rewrite length_app. cbn. lia.
Qed.

Lemma lookup_and_add_frame_witness :
  ((getitem (Str "c@x") seeded1).2 = (add (Str "c@x") seeded1).2 ∨
   (getitem (Str "c@x") seeded1).2 = (getitem (Str "c@x") seeded1).2) ∧
  (∀ k, k ≠ normalize (Str "c@x") →
     _rosters (getitem (Str "c@x") seeded1).2 !! k = _rosters seeded1 !! k) ∧
  (∀ r n, nodes seeded1 !! r = Some n →
     nodes (getitem (Str "c@x") seeded1).2 !! r = Some n) ∧
  (length (nodes (getitem (Str "c@x") seeded1).2)
     ≤ S (length (nodes seeded1)))%nat.
Proof.
  assert ((getitem (Str "c@x") seeded1).2 = (add (Str "c@x") seeded1).2 ∨
          (getitem (Str "c@x") seeded1).2 = (getitem (Str "c@x") seeded1).2)
    as H by (right; reflexivity).
  split; [exact H|].
  exact (lookup_and_add_frame seeded1 _ (Str "c@x") H).
Defined.

(** ** A node created by [add] *)

(** X3: a node that [add] creates is constructed with the roster's current
    datastore and has nothing written into it; looking it up afterwards
    through [__getitem__] returns it as it is, so it never receives the
    roster's [auto_authorize] / [auto_subscribe]. *)
Theorem added_node_gets_no_defaults (self : Roster) (i : pyval) :
  normalize i ∉ keys self →
  ∃ self1 r n,
    add i self = (Ok tt, self1) ∧
    getitem i self1 = (Ok r, self1) ∧
    nodes self1 !! r = Some n ∧
    n = RosterNode_new (xmpp self) (normalize i) (db self) ∧
    written_authorize n = None ∧ written_subscribe n = None.
Proof.
  intros Hin. eexists _, (length (nodes self)), _.
  rewrite add_absent by done. split; [done|]. split.
  { apply getitem_present. cbn. apply lookup_insert_eq. }
  split; [|done]. cbn. by rewrite lookup_app_r, Nat.sub_diag.
Qed.

Lemma added_node_gets_no_defaults_witness :
  (normalize (Jid (mkJID "c@x/home")) ∉ keys seeded1) ∧
  ∃ self1 r n,
    add (Jid (mkJID "c@x/home")) seeded1 = (Ok tt, self1) ∧
    getitem (Jid (mkJID "c@x/home")) self1 = (Ok r, self1) ∧
    nodes self1 !! r = Some n ∧
    n = RosterNode_new (xmpp seeded1) (normalize (Jid (mkJID "c@x/home")))
          (db seeded1) ∧
    written_authorize n = None ∧ written_subscribe n = None.
Proof.
  assert (normalize (Jid (mkJID "c@x/home")) ∉ keys seeded1) as H.
  { apply not_elem_of_keys. vm_compute. reflexivity. }
  split; [exact H|].
  exact (added_node_gets_no_defaults seeded1 (Jid (mkJID "c@x/home")) H).
Defined.

(** ** What the methods leave alone *)

Lemma same_settings_refl self : same_settings self self.
Proof. done. Qed.

Lemma same_settings_trans s1 s2 s3 :
  same_settings s1 s2 → same_settings s2 s3 → same_settings s1 s3.
Proof. intros (?&?&?) (?&?&?). repeat split; congruence. Qed.

Lemma added_settings node self :
  same_settings self (added self node) ∧ db (added self node) = db self.
Proof.
  unfold added. destruct (decide (normalize node ∈ keys self)) as [Hin|Hin].
  - by rewrite add_present.
  - by rewrite add_absent.
Qed.

Lemma foldl_added_settings es self :
  same_settings self (foldl added self es) ∧
  db (foldl added self es) = db self.
Proof.
  revert self. induction es as [|e es IH]; intros self; cbn; [done|].
  destruct (IH (added self e)) as [Hs Hd].
  destruct (added_settings e self) as [Hs' Hd'].
  split; [by eapply same_settings_trans|congruence].
Qed.

Lemma getitem_settings key self :
  same_settings self (getitem key self).2 ∧
  db (getitem key self).2 = db self.
Proof.
  destruct (decide (normalize key ∈ keys self)) as [Hin|Hin].
  - pose proof Hin as [r Hr]%elem_of_keys.
    by rewrite (getitem_present _ _ _ Hr).
  - by rewrite getitem_absent.
Qed.

Lemma length_foldl_alter {A} (f : A → A) (rs : list nat) (h : list A) :
  length (foldl (λ h r, alter f r h) h rs) = length h.
Proof.
  revert h. induction rs as [|r rs IH]; intros h; cbn; [done|].
  by rewrite IH, length_alter.
Qed.

(** The two node loops in any roster, consistent or not. *)
Lemma reset_any self :
  reset self =
    (Ok tt,
     with_nodes (foldl (λ h r, alter (record_call Reset) r h) (nodes self)
                       (map_to_list (_rosters self)).*2) self).
Proof.
  unfold reset. unfold mbind at 1. unfold M_bind, bind, get.
  apply (for_each_touch _ Reset); [|apply iter_refs].
  intros s k r Hr. unfold mbind, M_bind, bind.
  by rewrite (getitem_present (Str k) s r).
Qed.

Lemma set_backend_Some_any d self :
  set_backend (Some d) self =
    (Ok tt,
     with_nodes
       (foldl (λ h r, alter (record_call (SetBackend (Some d))) r h)
              (nodes (seeded d self))
              (map_to_list (_rosters (seeded d self))).*2)
       (seeded d self)).
Proof.
  unfold set_backend, mbind, M_bind, bind, modify, get. cbn.
  rewrite for_each_add. fold (seeded d self).
  apply (for_each_touch _ (SetBackend (Some d))); [|apply iter_refs].
  intros s k r Hr. unfold mbind, M_bind, bind.
  by rewrite (rosters_getitem_Some k s r).
Qed.

(** X4: no method changes the roster's [xmpp], [auto_authorize] or
    [auto_subscribe]; [add], [__getitem__] and [reset] leave [db] alone as
    well, and [set_backend(d)] leaves [db] equal to [d] whether it returns
    or raises.  [reset] returns normally in every roster and leaves the
    dictionary and the number of node objects as they were. *)
Theorem methods_keep_settings (self : Roster) (i : pyval)
    (d : option datastore) :
  (same_settings self (add i self).2 ∧ db (add i self).2 = db self) ∧
  (same_settings self (getitem i self).2 ∧ db (getitem i self).2 = db self) ∧
  ((reset self).1 = Ok tt ∧
   same_settings self (reset self).2 ∧ db (reset self).2 = db self ∧
   _rosters (reset self).2 = _rosters self ∧
   length (nodes (reset self).2) = length (nodes self)) ∧
  (same_settings self (set_backend d self).2 ∧ db (set_backend d self).2 = d).
Proof.
  split; [apply added_settings|]. split; [apply getitem_settings|]. split.
  - rewrite reset_any. cbn. repeat split. apply length_foldl_alter.
  - destruct d as [d|].
    + rewrite set_backend_Some_any. cbn.
      destruct (foldl_added_settings (entries d) (with_db (Some d) self))
        as [Hs Hd].
      split; [exact Hs|exact Hd].
    + by rewrite set_backend_None_spec.
Qed.

(** ** How node objects are constructed *)

Lemma nodes_added_new node self :
  ∃ new, nodes (added self node) = nodes self ++ new ∧
         Forall (λ n, ∃ k, n = RosterNode_new (xmpp self) k (db self)) new.
Proof.
  unfold added. destruct (decide (normalize node ∈ keys self)) as [Hin|Hin].
  - rewrite add_present by done. exists []. by rewrite app_nil_r.
  - rewrite add_absent by done. cbn. eexists. split; [done|].
    apply Forall_singleton. by eexists.
Qed.

Lemma nodes_foldl_added_new es self :
  ∃ new, nodes (foldl added self es) = nodes self ++ new ∧
         Forall (λ n, ∃ k, n = RosterNode_new (xmpp self) k (db self)) new.
Proof.
  revert self. induction es as [|e es IH]; intros self; cbn.
  - exists []. by rewrite app_nil_r.
  - destruct (IH (added self e)) as (new2 & -> & H2).
    destruct (nodes_added_new e self) as (new1 & -> & H1).
    destruct (added_settings e self) as [(Hx & _ & _) Hd].
    rewrite Hx, Hd in H2.
    exists (new1 ++ new2). rewrite <-(assoc_L (++)). split; [done|].
    by apply Forall_app.
Qed.

Lemma current_db_record c n :
  current_db (record_call c n)
  = match c with SetBackend d => d | _ => current_db n end.
Proof.
  unfold current_db. cbn. rewrite omap_app.
  destruct c; cbn; rewrite ?app_nil_r; try done. by rewrite last_snoc.
Qed.

Lemma owned_foldl_added es self : owned self → owned (foldl added self es).
Proof.
  unfold owned. intros Ho.
  destruct (nodes_foldl_added_new es self) as (new & -> & Hnew).
  destruct (foldl_added_settings es self) as [(-> & _ & _) _].
  apply Forall_app. split; [done|].
  eapply Forall_impl; [exact Hnew|]. by intros n [k ->].
Qed.

Lemma in_sync_foldl_added es self :
  in_sync self → in_sync (foldl added self es).
Proof.
  unfold in_sync. intros Hs.
  destruct (nodes_foldl_added_new es self) as (new & -> & Hnew).
  destruct (foldl_added_settings es self) as [_ ->].
  apply Forall_app. split; [done|].
  eapply Forall_impl; [exact Hnew|]. by intros n [k ->].
Qed.

Lemma owned_getitem key self : owned self → owned (getitem key self).2.
Proof.
  intros Ho. destruct (decide (normalize key ∈ keys self)) as [Hin|Hin].
  - pose proof Hin as [r Hr]%elem_of_keys.
    by rewrite (getitem_present _ _ _ Hr).
  - rewrite getitem_absent by done. unfold owned. cbn.
    apply Forall_app. split; [done|]. by apply Forall_singleton.
Qed.

Lemma in_sync_getitem key self : in_sync self → in_sync (getitem key self).2.
Proof.
  intros Hs. destruct (decide (normalize key ∈ keys self)) as [Hin|Hin].
  - pose proof Hin as [r Hr]%elem_of_keys.
    by rewrite (getitem_present _ _ _ Hr).
  - rewrite getitem_absent by done. unfold in_sync. cbn.
    apply Forall_app. split; [done|]. by apply Forall_singleton.
Qed.

Lemma owned_record_all c self :
  owned self → owned (with_nodes (record_call c <$> nodes self) self).
Proof.
  unfold owned. cbn. intros Ho. apply Forall_fmap.
  eapply Forall_impl; [exact Ho|]. done.
Qed.

Lemma owned_with_db d self : owned self → owned (with_db d self).
Proof. done. Qed.

Lemma step_owned self self' :
  consistent self → owned self → step self self' → owned self'.
Proof.
  intros Hc Ho Hstep. destruct Hstep as
    [node self res self' H|key self res self' H|d self res self' H
    |self res self' H|b self|b self]; try done.
  - rewrite add_returns in H. injection H as _ <-.
    by apply (owned_foldl_added [node]).
  - replace self' with (getitem key self).2 by by rewrite H.
    by apply owned_getitem.
  - destruct d as [d|].
    + rewrite set_backend_Some_spec in H by done. injection H as _ <-.
      by apply owned_record_all, owned_foldl_added.
    + rewrite set_backend_None_spec in H. by injection H as _ <-.
  - rewrite reset_spec in H by done. injection H as _ <-.
    by apply owned_record_all.
Qed.

Lemma init_owned x d : owned (init x d).2.
Proof.
  destruct d as [d|].
  - rewrite init_Some. apply owned_foldl_added. constructor.
  - rewrite init_None. constructor.
Qed.

Lemma reachable_owned self : reachable self → owned self.
Proof.
  induction 1 as [x d res self H|self self' Hr IH Hstep].
  - replace self with (init x d).2 by by rewrite H. apply init_owned.
  - eapply step_owned; [|done..]. by apply reachable_consistent.
Qed.

(** X5: in every roster obtained from the constructor and the methods,
    each key has a node object, and that object was constructed for that
    very key and with the roster's [xmpp]. *)
Theorem every_key_has_its_node (self : Roster) (k : string) :
  reachable self →
  k ∈ keys self →
  ∃ n, node_of self k = Some n ∧ node_jid n = k ∧ node_xmpp n = xmpp self.
Proof.
  intros Hr [r Hk]%elem_of_keys.
  destruct (key_has_node _ (reachable_consistent _ Hr) _ _ Hk)
    as (n & Hn & Hj).
  exists n. unfold node_of. rewrite Hk. cbn. repeat split; [done..|].
  by apply (Forall_lookup_1 _ _ _ _ (reachable_owned _ Hr) Hn).
Qed.

Lemma every_key_has_its_node_witness :
  reachable after_reset1 ∧
  ("b@x" ∈ keys after_reset1) ∧
  ∃ n, node_of after_reset1 "b@x" = Some n ∧ node_jid n = "b@x" ∧
       node_xmpp n = xmpp after_reset1.
Proof.
  assert (reachable after_reset1) as H.
  { apply (reachable_step seeded1).
    - apply (reachable_init 0 (Some store1) (Ok tt)). vm_compute. reflexivity.
    - apply (step_reset seeded1 (Ok tt)). vm_compute. reflexivity. }
  assert ("b@x" ∈ keys after_reset1) as Hk.
  { apply elem_of_keys. exists 1. vm_compute. reflexivity. }
  split; [exact H|]. split; [exact Hk|].
  exact (every_key_has_its_node after_reset1 "b@x" H Hk).
Defined.

(** ** Which datastore the nodes are bound to *)


(** A datastore whose enumeration returns behaves as the record says,
    whatever its truth value: [set_backend] does not test it. *)
Lemma set_backend_of_returns t d self :
  set_backend_of (mkBehaviour t None) d self = set_backend d self.
Proof. by destruct d. Qed.

Lemma set_backend_of_raises t e d self :
  set_backend_of (mkBehaviour t (Some e)) (Some d) self
  = (Raise e, with_db (Some d) self).
Proof. reflexivity. Qed.



Lemma in_sync_record_all c self :
  (∀ d, c ≠ SetBackend d) →
  in_sync self → in_sync (with_nodes (record_call c <$> nodes self) self).
Proof.
  unfold in_sync. cbn. intros Hc Hs. apply Forall_fmap.
  eapply Forall_impl; [exact Hs|]. intros n Hn. cbn.
  rewrite current_db_record. destruct c; try done. by destruct (Hc db0).
Qed.

(** X7: on a roster obtained from the constructor and the methods in
    which every node is bound to the datastore the roster holds, [add],
    [__getitem__], [reset], the assignments to the default flags, and
    [set_backend(d)] with a datastore whose enumeration returns all keep
    it so.  A [set_backend(d)] whose enumeration raises does not: the
    roster then holds [d] while its nodes stay bound to the datastore
    held before. *)
Theorem nodes_stay_bound_to_roster_db (self : Roster) :
  reachable self →
  in_sync self →
  (∀ i, in_sync (add i self).2 ∧ in_sync (getitem i self).2) ∧
  in_sync (reset self).2 ∧
  (∀ t d, in_sync (set_backend_of (mkBehaviour t None) (Some d) self).2) ∧
  (∀ t e d, db self ≠ Some d → nodes self ≠ [] →
     ¬ in_sync (set_backend_of (mkBehaviour t (Some e)) (Some d) self).2) ∧
  (∀ v, in_sync (with_auto_authorize v self) ∧
        in_sync (with_auto_subscribe v self)).
Proof.
  intros Hc%reachable_consistent Hs. split; [|split; [|split; [|split]]].
  - intros i. split.
    + rewrite add_returns. by apply (in_sync_foldl_added [i]).
    + by apply in_sync_getitem.
  - rewrite reset_spec by done. by apply in_sync_record_all.
  - intros t d. rewrite set_backend_of_returns.
    rewrite set_backend_Some_spec by done.
    unfold in_sync. cbn. apply Forall_fmap, Forall_forall. intros n _. cbn.
    rewrite current_db_record. unfold seeded.
    by destruct (foldl_added_settings (entries d) (with_db (Some d) self))
      as [_ ->].
  - intros t e d Hd Hne. rewrite set_backend_of_raises.
    unfold in_sync in *. cbn. intros Hs'.
    destruct (nodes self) as [|n ns]; [done|].
    apply Forall_cons in Hs as [Hn _]. apply Forall_cons in Hs' as [Hn' _].
    congruence.
  - done.
Qed.

Lemma nodes_stay_bound_to_roster_db_witness :
  reachable seeded1 ∧
  in_sync seeded1 ∧
  (∀ i, in_sync (add i seeded1).2 ∧ in_sync (getitem i seeded1).2) ∧
  in_sync (reset seeded1).2 ∧
  (∀ t d,
     in_sync (set_backend_of (mkBehaviour t None) (Some d) seeded1).2) ∧
  (∀ t e d, db seeded1 ≠ Some d → nodes seeded1 ≠ [] →
     ¬ in_sync
         (set_backend_of (mkBehaviour t (Some e)) (Some d) seeded1).2) ∧
  (∀ v, in_sync (with_auto_authorize v seeded1) ∧
        in_sync (with_auto_subscribe v seeded1)).
Proof.
  assert (reachable seeded1) as H.
  { apply (reachable_init 0 (Some store1) (Ok tt)). vm_compute. reflexivity. }
  assert (in_sync seeded1) as Hs.
  { unfold in_sync. vm_compute. repeat constructor. }
  split; [exact H|]. split; [exact Hs|].
  exact (nodes_stay_bound_to_roster_db seeded1 H Hs).
Defined.

(** X8: a [set_backend(None)] that raised has nevertheless replaced the
    roster's datastore: the nodes that existed are untouched (still bound
    as before), while a node created by a later lookup is constructed
    with no datastore. *)
Theorem failed_set_backend_unbinds_new_nodes (self : Roster) (key : pyval) :
  normalize key ∉ keys self →
  ∃ e self1 r self2 n,
    set_backend None self = (Raise e, self1) ∧
    getitem key self1 = (Ok r, self2) ∧
    nodes self2 !! r = Some n ∧
    node_db n = None ∧ current_db n = None ∧
    ∀ r' n', nodes self !! r' = Some n' → nodes self2 !! r' = Some n'.
Proof.
  intros Hin. eexists _, _, _, _, _. rewrite set_backend_None_spec.
  split; [done|]. rewrite getitem_absent by done. split; [done|]. cbn.
  split; [by rewrite lookup_app_r, Nat.sub_diag|].
  split; [done|]. split; [done|].
  intros r' n' Hl. by apply lookup_app_l_Some.
Qed.

Lemma failed_set_backend_unbinds_new_nodes_witness :
  (normalize (Str "c@x") ∉ keys seeded1) ∧
  ∃ e self1 r self2 n,
    set_backend None seeded1 = (Raise e, self1) ∧
    getitem (Str "c@x") self1 = (Ok r, self2) ∧
    nodes self2 !! r = Some n ∧
    node_db n = None ∧ current_db n = None ∧
    ∀ r' n', nodes seeded1 !! r' = Some n' → nodes self2 !! r' = Some n'.
Proof.
  assert (normalize (Str "c@x") ∉ keys seeded1) as H.
  { apply not_elem_of_keys. vm_compute. reflexivity. }
  split; [exact H|].
  exact (failed_set_backend_unbinds_new_nodes seeded1 (Str "c@x") H).
Defined.

(** ** [set_backend] with nothing new to add *)

Lemma foldl_added_known es self :
  Forall (λ e, normalize e ∈ keys self) es → foldl added self es = self.
Proof.
  induction 1 as [|e es He _ IH]; cbn; [done|].
  unfold added at 2. by rewrite add_present.
Qed.

Lemma with_db_id self : with_db (db self) self = self.
Proof. by destruct self. Qed.

Lemma set_backend_known d self :
  consistent self →
  Forall (λ e, normalize e ∈ keys self) (entries d) →
  set_backend (Some d) self =
    (Ok tt,
     with_nodes (record_call (SetBackend (Some d)) <$> nodes self)
                (with_db (Some d) self)).
Proof.
  intros Hc Hk. rewrite set_backend_Some_spec by done.
  unfold seeded. by rewrite foldl_added_known.
Qed.

(** X9: when the datastore reports no identity the roster does not
    already have -- in particular when it reports none at all --
    [set_backend(d)] creates no node and changes no key: it stores [d]
    and calls [set_backend(d)] once on every node. *)
Theorem set_backend_nothing_new (self : Roster) (d : datastore) :
  reachable self →
  Forall (λ e, normalize e ∈ keys self) (entries d) →
  ∃ self',
    set_backend (Some d) self = (Ok tt, self') ∧
    db self' = Some d ∧
    _rosters self' = _rosters self ∧
    nodes self' = record_call (SetBackend (Some d)) <$> nodes self.
Proof.
  intros Hc%reachable_consistent Hk. eexists.
  by rewrite set_backend_known.
Qed.

Lemma set_backend_nothing_new_witness :
  reachable seeded1 ∧
  Forall (λ e, normalize e ∈ keys seeded1) (entries (mkDatastore 4 [])) ∧
  ∃ self',
    set_backend (Some (mkDatastore 4 [])) seeded1 = (Ok tt, self') ∧
    db self' = Some (mkDatastore 4 []) ∧
    _rosters self' = _rosters seeded1 ∧
    nodes self'
    = record_call (SetBackend (Some (mkDatastore 4 []))) <$> nodes seeded1.
Proof.
  assert (reachable seeded1) as H.
  { apply (reachable_init 0 (Some store1) (Ok tt)). vm_compute. reflexivity. }
  assert (Forall (λ e, normalize e ∈ keys seeded1)
                 (entries (mkDatastore 4 []))) as Hk.
  { simpl. constructor. }
  split; [exact H|]. split; [exact Hk|].
  exact (set_backend_nothing_new seeded1 (mkDatastore 4 []) H Hk).
Defined.

(** X10: calling [set_backend(d)] a second time with the same datastore
    (reporting the same identities) returns normally and adds nothing:
    same dictionary, same node objects, each with one more
    [set_backend(d)] call recorded. *)
Theorem set_backend_again (self : Roster) (d : datastore) :
  reachable self →
  ∃ self1 self2,
    set_backend (Some d) self = (Ok tt, self1) ∧
    set_backend (Some d) self1 = (Ok tt, self2) ∧
    db self2 = db self1 ∧
    _rosters self2 = _rosters self1 ∧
    nodes self2 = record_call (SetBackend (Some d)) <$> nodes self1.
Proof.
  intros Hc%reachable_consistent. eexists _, _.
  rewrite set_backend_Some_spec by done. split; [done|].
  set (s1 := with_nodes _ (seeded d self)).
  assert (consistent s1) as Hc1.
  { apply consistent_record_all, consistent_foldl_added. by destruct Hc. }
  assert (db s1 = Some d) as Hd.
  { unfold s1, seeded. cbn.
    by destruct (foldl_added_settings (entries d) (with_db (Some d) self))
      as [_ ->]. }
  assert (Forall (λ e, normalize e ∈ keys s1) (entries d)) as Hk.
  { apply Forall_forall. intros e He.
    unfold s1, keys. cbn. fold (keys (seeded d self)).
    unfold seeded. rewrite keys_foldl_added.
    apply elem_of_union_r, elem_of_list_to_set, list_elem_of_fmap. eauto. }
  rewrite set_backend_known by done.
  rewrite <-Hd, with_db_id. by rewrite Hd.
Qed.

Lemma set_backend_again_witness :
  reachable seeded1 ∧
  ∃ self1 self2,
    set_backend (Some store2) seeded1 = (Ok tt, self1) ∧
    set_backend (Some store2) self1 = (Ok tt, self2) ∧
    db self2 = db self1 ∧
    _rosters self2 = _rosters self1 ∧
    nodes self2 = record_call (SetBackend (Some store2)) <$> nodes self1.
Proof.
  assert (reachable seeded1) as H.
  { apply (reachable_init 0 (Some store1) (Ok tt)). vm_compute. reflexivity. }
  split; [exact H|]. exact (set_backend_again seeded1 store2 H).
Defined.

(** ** Construction *)



